(** * Lab_TransformReduce: the hand-rolled parallel transform-reduce engine
      and the sweep driver of [src/main.cpp], embedded and verified.

    Modelling conventions.
    - An iterator range [first, last) is the list of the elements it denotes;
      an iterator into it is its offset from [first] (a [nat]), and
      [std::advance] is addition on offsets. [std::distance(first, last)] is
      the length of the list, so the guard [n <= 0] is [n = 0].
    - [std::size_t] and [std::ptrdiff_t] quantities are [nat]: every value the
      engine computes ([n], the clamped [K], [base], [rem], [block_size], the
      loop counter and the offsets) is bounded by [n], so no operation of the
      function can wrap around.
    - [T{}] is the value-initialised element of the result type; it is fixed
      by the type [T] alone, which the class [ValueInit] expresses.
    - The sequence is a vector, as in [main]: its iterators are
      random-access. The serial [std::transform_reduce] is libstdc++'s
      (<numeric>): on random-access iterators it consumes four elements at a
      time, combining them pairwise before combining with the accumulator,
      and folds the remaining (at most three) elements one by one. For an
      associative operation this is the plain left fold, [transform_reduce]
      below.
    - The vector [partials] is a list updated by index; every write of the
      engine is in range, so stdpp's silent out-of-range insert is never hit.
    - A worker thread reads the immutable sequence and writes exactly one
      slot of [partials]; a schedule is the order in which the worker bodies
      take effect before the join.
    - Times are the values of the finite [double]s [measure_ms] returns,
      hence rationals; [<] on them is the order of the rationals.
      [steady_clock] counts nanoseconds in a signed 64-bit integer, which
      bounds every time [measure_ms] can return.
    - [unsigned] is 32 bits wide: [hw * 2] is computed modulo 2^32. *)

From Stdlib Require Import ZArith QArith Lqa Lia.
From stdpp Require Import base list numbers.

Local Open Scope nat_scope.

(** * The program *)

(** ** Value initialisation [T{}] *)

Class ValueInit (T : Type) := value_init : T.

#[global] Instance Z_value_init : ValueInit Z := 0%Z.
#[global] Instance Q_value_init : ValueInit Q := 0%Q.
#[global] Instance list_value_init {A : Type} : ValueInit (list A) := [].

(** ** The engine *)

(** What one [std::thread] of the engine captured: the slot [i] of [partials]
    it writes and the iterators [bs], [be] of its block. *)
Record thread := Thread { slot : nat; bs : nat; be : nat }.

(** Local state of [manual_parallel_transform_reduce] at its [return]:
    the returned value, the vector [partials] and the vector [threads]. *)
Record outcome (T : Type) :=
  Outcome { result : T; partials : list T; threads : list thread }.
Arguments Outcome {T} _ _ _.
Arguments result {T} _.
Arguments partials {T} _.
Arguments threads {T} _.

(** [block_size = base + (i < rem ? 1 : 0)] *)
Definition block_size (base rem i : nat) : nat :=
  base + (if i <? rem then 1 else 0).

(** The spawning loop [for (i = 0; i < K; ++i)], entered with counter [i],
    [todo = K - i] iterations left and the running iterator [block_start]. *)
Fixpoint spawn_threads (base rem i todo block_start : nat) : list thread :=
  match todo with
  | O => []
  | S todo' =>
      let block_end := block_start + block_size base rem i in
      Thread i block_start block_end
        :: spawn_threads base rem (S i) todo' block_end
  end.

Section Engine.
Context {A T : Type} `{ValueInit T}.
Variable reduce_op : T → T → T.
Variable transform_op : A → T.

(** The sequential left fold, from [init], of [reduce_op] over the
    transformed elements; also the final loop
    [for (; first != last; ++first)], which combines [init] with the
    transformed element at [first], of [std::transform_reduce]. *)
Definition transform_reduce (blk : list A) (init : T) : T :=
  fold_left (λ acc x, reduce_op acc (transform_op x)) blk init.

(** Serial [std::transform_reduce(first, last, init, reduce_op,
    transform_op)] on random-access iterators:
    [while ((last - first) >= 4) {
       v1 = binary_op(unary_op(first[0]), unary_op(first[1]));
       v2 = binary_op(unary_op(first[2]), unary_op(first[3]));
       v3 = binary_op(v1, v2);
       init = binary_op(init, v3);
       first += 4; }]
    followed by the element-wise loop over what is left. *)
Fixpoint std_transform_reduce (blk : list A) (init : T) : T :=
  match blk with
  | x0 :: x1 :: x2 :: x3 :: rest =>
      let v1 := reduce_op (transform_op x0) (transform_op x1) in
      let v2 := reduce_op (transform_op x2) (transform_op x3) in
      let v3 := reduce_op v1 v2 in
      std_transform_reduce rest (reduce_op init v3)
  | _ => transform_reduce blk init
  end.

(** Elements of the iterator range [b, e) of [data]. *)
Definition range (data : list A) (b e : nat) : list A :=
  take (e - b) (drop b data).

(** What a worker computes:
    [std::transform_reduce(bs, be, T{}, reduce_op, transform_op)]. *)
Definition partial_of (data : list A) (th : thread) : T :=
  std_transform_reduce (range data (bs th) (be th)) value_init.

(** Body of a worker: [partials[i] = std::transform_reduce(...)]. *)
Definition worker (data : list A) (ps : list T) (th : thread) : list T :=
  <[slot th := partial_of data th]> ps.

(** State of [partials] once every worker of [order] has finished, the
    bodies taking effect in the order given. *)
Definition join (data : list A) (order : list thread) (ps : list T)
  : list T :=
  fold_left (worker data) order ps.

(** [for (auto& v : partials) result = reduce_op(result, v);] *)
Definition merge (init : T) (ps : list T) : T := fold_left reduce_op ps init.

(** The clamp [if (n < K) K = n]. *)
Definition effective_K (n K : nat) : nat := if n <? K then n else K.

(** The whole function, workers finishing in the order [schedule] makes of
    the spawned threads. *)
Definition run_scheduled (schedule : list thread → list thread)
    (data : list A) (init : T) (K : nat) : outcome T :=
  let n := length data in
  if (n =? 0) || (K =? 0) then Outcome init [] []
  else
    let K := effective_K n K in
    let ps := replicate K value_init in
    let total := n in
    let base := total / K in
    let rem := total mod K in
    let ths := spawn_threads base rem 0 K 0 in
    let ps := join data (schedule ths) ps in
    Outcome (merge init ps) ps ths.

(** Workers finishing in spawn order. *)
Definition run_engine : list A → T → nat → outcome T := run_scheduled id.

Definition manual_parallel_transform_reduce
    (data : list A) (init : T) (K : nat) : T :=
  result (run_engine data init K).

End Engine.

(** The partitioning the engine computes for [n] elements and [K] workers:
    its spawning loop run with [base = n / K] and [rem = n % K]. *)
Definition partition (n K : nat) : list thread :=
  spawn_threads (n / K) (n mod K) 0 K 0.

(** ** The sweep driver of [main] *)

(** [unsigned hw = std::thread::hardware_concurrency(); if (!hw) hw = 1;] *)
Definition hardware_threads (hint : nat) : nat :=
  if hint =? 0 then 1 else hint.

(** State of the sweep loop: [best_time], [best_K] and the lines
    [K <tab> t] written so far. *)
Record sweep_state :=
  SweepState { best_time : Q; best_K : nat; table : list (nat * Q) }.

(** [double best_time = 1e18; std::size_t best_K = 1;] *)
Definition initial_best_time : Q := 1e18%Q.

Definition sweep_init : sweep_state := SweepState initial_best_time 1 [].

(** One iteration for worker count [K], where [measure K] is the time
    [measure_ms] returned for it:
    [if (t < best_time) { best_time = t; best_K = K; }] *)
Definition sweep_step (measure : nat → Q) (st : sweep_state) (K : nat)
  : sweep_state :=
  let t := measure K in
  let tbl := table st ++ [(K, t)] in
  if Qlt_le_dec t (best_time st)
  then SweepState t K tbl
  else SweepState (best_time st) (best_K st) tbl.

(** Number of values of [unsigned]. *)
Definition unsigned_modulus : N := 4294967296%N.

(** The loop bound [hw * 2], computed on [unsigned]. *)
Definition sweep_bound (hw : nat) : nat :=
  N.to_nat ((N.of_nat hw * 2) mod unsigned_modulus).

(** [for (std::size_t K = 1; K <= hw * 2; ++K)] *)
Definition sweep (hw : nat) (measure : nat → Q) : sweep_state :=
  fold_left (sweep_step measure) (seq 1 (sweep_bound hw)) sweep_init.

(** The sweep as [main] runs it, from the platform's concurrency hint. *)
Definition sweep_main (hint : nat) (measure : nat → Q) : sweep_state :=
  sweep (hardware_threads hint) measure.

(** * Vocabulary of the specification *)

(** Number of elements of a thread's block, [std::distance(bs, be)]. *)
Definition size_of (th : thread) : nat := be th - bs th.

(** Indices of the sequence a worker dereferences: those of [bs, be). *)
Definition reads (th : thread) : list nat := seq (bs th) (be th - bs th).

(** Every index of the sequence some worker of a call dereferenced. *)
Definition elements_read {T : Type} (out : outcome T) : list nat :=
  concat (reads <$> threads out).

(** Closed form of the offset at which block [i] of [n] elements cut into
    [K] blocks starts: the first [rem] blocks hold [base + 1] elements, the
    others [base]. *)
Definition block_bound (n K i : nat) : nat :=
  i * (n / K) + Nat.min i (n mod K).

(** Block [i] by its closed-form bounds: as a thread, and as the elements
    of [data] it holds. *)
Definition thread_of (n K i : nat) : thread :=
  Thread i (block_bound n K i) (block_bound n K (S i)).

Definition block {A : Type} (data : list A) (K i : nat) : list A :=
  range data (block_bound (length data) K i)
             (block_bound (length data) K (S i)).

Definition ceil_div (n K : nat) : nat := (n + K - 1) / K.

(** [e] is the neutral element of [op]. *)
Definition neutral {T : Type} (op : T → T → T) (e : T) : Prop :=
  ∀ x, op x e = x ∧ op e x = x.

Definition associative {T : Type} (op : T → T → T) : Prop :=
  ∀ x y z, op (op x y) z = op x (op y z).

Definition commutative {T : Type} (op : T → T → T) : Prop :=
  ∀ x y, op x y = op y x.

(** The per-block reductions as the workers compute them: each of the
    [min K n] blocks reduced by [std::transform_reduce] from [seed]. *)
Definition reduced_partials {A T : Type} (op : T → T → T) (f : A → T)
    (seed : T) (data : list A) (K : nat) : list T :=
  let K' := Nat.min K (length data) in
  (λ i, std_transform_reduce op f (block data K' i) seed) <$> seq 0 K'.

(** The specification's per-block folds, in its own words: each of the
    [min K n] blocks is folded from the seed [seed]. *)
Definition seeded_partials {A T : Type} (op : T → T → T) (f : A → T)
    (seed : T) (data : list A) (K : nat) : list T :=
  let K' := Nat.min K (length data) in
  (λ i, transform_reduce op f (block data K' i) seed) <$> seq 0 K'.

(** A time [measure_ms] can return. The difference of two [steady_clock]
    readings is below 2^63 ns, that is below 9223372036855 ms; the
    conversion to [double] milliseconds rounds to nearest, and
    9223372036855 is itself a [double], so the rounded value does not
    exceed it. *)
Definition max_elapsed_ms : Q := 9223372036855%Q.

Definition clock_bounded (t : Q) : Prop := (t <= max_elapsed_ms)%Q.

(** The sweep loop after its first [m] iterations. *)
Definition sweep_upto (m : nat) (measure : nat → Q) : sweep_state :=
  fold_left (sweep_step measure) (seq 1 m) sweep_init.

(** Minimum selection, in the specification's words: the reported best [K]
    has a recorded time that is [<=] every recorded time, and among the
    worker counts that tie with it, it is the smallest. *)
Definition selects_first_minimum (st : sweep_state) : Prop :=
  ∃ t, (best_K st, t) ∈ table st
    ∧ ∀ K' t', (K', t') ∈ table st →
        (t <= t')%Q ∧ (t' == t → best_K st ≤ K')%Q.

(** ** Instances used in the examples *)

(** [transform_op = [](T x) { return x * x; }] *)
Definition sq (x : Z) : Z := (x * x)%Z.

(** Recorded times (ms) of a sweep in which [K = 2] and [K = 3] tie for the
    minimum. *)
Definition tie_measure (K : nat) : Q :=
  match K with 1 => 5%Q | 2 => 3%Q | 3 => 3%Q | _ => 4%Q end.

(** Times above the initial [best_time], which no clock returns: they
    exercise the path of the selection on which no update happens. *)
Definition slow_measure (K : nat) : Q :=
  if K =? 1 then 3e18%Q else 2e18%Q.

(** * Properties *)

(** ** Small runs of the program *)

Example engine_two_workers :
  run_engine Z.add sq [1; 2; 3; 4; 5]%Z 0%Z 2
  = Outcome 55%Z [14; 41]%Z [Thread 0 0 3; Thread 1 3 5].
Proof. reflexivity. Qed.

(** Concatenation is associative but not commutative: the engine keeps the
    order of the elements. *)
Example engine_concatenation :
  manual_parallel_transform_reduce app (λ x : Z, [x]) [1; 2; 3; 4; 5]%Z [0%Z] 3
  = [0; 1; 2; 3; 4; 5]%Z.
Proof. reflexivity. Qed.

(** Subtraction is not associative, and the four-at-a-time grouping of
    [std::transform_reduce] shows: the block [1, 2, 3, 4] gives
    [0 - ((1 - 2) - (3 - 4)) = 0], where the left fold gives -10. *)
Example engine_subtraction :
  run_engine Z.sub id [1; 2; 3; 4; 5; 6; 7; 8]%Z 0%Z 2
  = Outcome 0%Z [0; 0]%Z [Thread 0 0 4; Thread 1 4 8]
  ∧ transform_reduce Z.sub id [1; 2; 3; 4]%Z 0%Z = (-10)%Z
  ∧ manual_parallel_transform_reduce Z.sub id [1; 2; 3; 4]%Z 10%Z 1 = 10%Z.
Proof. repeat split. Qed.

(** Five elements: one group of four, then the last element. *)
Example std_transform_reduce_five :
  std_transform_reduce Z.sub id [1; 2; 3; 4; 5]%Z 0%Z
  = (0 - ((1 - 2) - (3 - 4)) - 5)%Z.
Proof. reflexivity. Qed.

(** More workers than elements, and workers finishing in reverse order. *)
Example engine_clamped_reversed :
  run_scheduled Z.add sq reverse [1; 2; 3]%Z 10%Z 7
  = Outcome 24%Z [1; 4; 9]%Z [Thread 0 0 1; Thread 1 1 2; Thread 2 2 3].
Proof. reflexivity. Qed.

Example sweep_bound_small : sweep_bound 8 = 16.
Proof. reflexivity. Qed.

Example sweep_with_tie :
  sweep 2 tie_measure
  = SweepState 3%Q 2 [(1, 5%Q); (2, 3%Q); (3, 3%Q); (4, 4%Q)].
Proof. reflexivity. Qed.

Lemma hardware_threads_pos hint : 1 ≤ hardware_threads hint.
Proof. unfold hardware_threads. destruct (Nat.eqb_spec hint 0); lia. Qed.

(** ** The spawning loop and the closed-form bounds *)

Lemma block_bound_0 n K : block_bound n K 0 = 0.
Proof. reflexivity. Qed.

Lemma block_bound_S n K i :
  block_bound n K (S i) = block_bound n K i + block_size (n / K) (n mod K) i.
Proof.
  unfold block_bound, block_size. rewrite Nat.mul_succ_l.
  destruct (Nat.ltb_spec i (n mod K)); lia.
Qed.

Lemma block_bound_full n K : 0 < K → block_bound n K K = n.
Proof.
  intros HK. unfold block_bound.
  pose proof (Nat.mod_upper_bound n K ltac:(lia)) as Hlt.
  rewrite Nat.min_r by lia.
  rewrite (Nat.div_mod_eq n K) at 3. lia.
Qed.

Lemma block_bound_step n K i : block_bound n K i ≤ block_bound n K (S i).
Proof. rewrite block_bound_S. lia. Qed.

Lemma block_bound_mono n K i j :
  i ≤ j → block_bound n K i ≤ block_bound n K j.
Proof.
  induction 1 as [|j _ IH]; [done|].
  etrans; [exact IH | apply block_bound_step].
Qed.

(** With fewer workers than elements every block holds an element. *)
Lemma block_size_pos n K i : 1 ≤ K ≤ n → 1 ≤ block_size (n / K) (n mod K) i.
Proof.
  intros [HK Hn]. unfold block_size.
  assert (1 ≤ n / K) by (apply Nat.div_le_lower_bound; lia). lia.
Qed.

Lemma spawn_threads_from n K todo i :
  spawn_threads (n / K) (n mod K) i todo (block_bound n K i)
  = thread_of n K <$> seq i todo.
Proof.
  revert i. induction todo as [|todo IH]; intros i; [done|].
  cbn [spawn_threads seq fmap list_fmap]. rewrite <- block_bound_S.
  rewrite IH. done.
Qed.

Lemma partition_threads n K : partition n K = thread_of n K <$> seq 0 K.
Proof. unfold partition. apply (spawn_threads_from n K K 0). Qed.

Lemma partition_lookup n K i :
  i < K → partition n K !! i = Some (thread_of n K i).
Proof.
  intros Hi. rewrite partition_threads, list_lookup_fmap.
  rewrite lookup_seq_lt by done. done.
Qed.

Lemma partition_length n K : length (partition n K) = K.
Proof. rewrite partition_threads, length_fmap, length_seq. done. Qed.

(** ** Workers and the join *)

Section EngineFacts.
Context {A T : Type} `{ValueInit T}.
Variable reduce_op : T → T → T.
Variable transform_op : A → T.

Local Abbreviation tr := (transform_reduce reduce_op transform_op).
Local Abbreviation std_tr := (std_transform_reduce reduce_op transform_op).
Local Abbreviation partial_of := (partial_of reduce_op transform_op).
Local Abbreviation join := (join reduce_op transform_op).
Local Abbreviation worker := (worker reduce_op transform_op).
Local Abbreviation run_scheduled := (run_scheduled reduce_op transform_op).
Local Abbreviation run_engine := (run_engine reduce_op transform_op).
Local Abbreviation engine :=
  (manual_parallel_transform_reduce reduce_op transform_op).
Local Abbreviation seeded := (seeded_partials reduce_op transform_op).
Local Abbreviation reduced := (reduced_partials reduce_op transform_op).

Lemma join_length (data : list A) order (ps : list T) :
  length (join data order ps) = length ps.
Proof.
  unfold join. revert ps.
  induction order as [|th order IH]; intros ps; [done|].
  cbn. rewrite IH. apply length_insert.
Qed.

(** A slot no worker of [order] owns keeps its content. *)
Lemma join_lookup_other (data : list A) order (ps : list T) j :
  j ∉ slot <$> order → join data order ps !! j = ps !! j.
Proof.
  unfold join. revert ps.
  induction order as [|th order IH]; intros ps Hj; [done|].
  cbn in *. apply not_elem_of_cons in Hj as [Hne Hj].
  rewrite IH by done. apply list_lookup_insert_ne. done.
Qed.

(** Each slot has one writer, so after the join it holds what its owner
    wrote, whenever the other workers ran. *)
Lemma join_lookup_slot (data : list A) order (ps : list T) th :
  NoDup (slot <$> order) → th ∈ order → slot th < length ps →
  join data order ps !! slot th = Some (partial_of data th).
Proof.
  revert ps. induction order as [|th' order IH]; intros ps Hnd Hin Hlt.
  { by apply elem_of_nil in Hin. }
  cbn in Hnd. apply list.NoDup_cons in Hnd as [Hfresh Hnd].
  change (join data (th' :: order) ps) with (join data order (worker data ps th')).
  apply elem_of_cons in Hin as [->|Hin].
  - rewrite join_lookup_other by done.
    apply list_lookup_insert_eq. done.
  - apply IH; [done..|]. unfold worker. by rewrite length_insert.
Qed.

(** The content of [partials] after the join does not depend on the order
    in which the workers finished. *)
Lemma join_partition (data : list A) n K order :
  order ≡ₚ partition n K →
  join data order (replicate K value_init)
  = partial_of data <$> partition n K.
Proof.
  intros Hperm.
  assert (NoDup (slot <$> order)) as Hnd.
  { rewrite Hperm, partition_threads, <- list_fmap_compose.
    rewrite (list_fmap_ext _ id) by done.
    rewrite list_fmap_id. apply NoDup_seq. }
  apply (list_eq_same_length _ _ K).
  - by rewrite length_fmap, partition_length.
  - by rewrite join_length, length_replicate.
  - intros i x y Hi Hx Hy.
    rewrite list_lookup_fmap, partition_lookup in Hy by done.
    injection Hy as <-.
    rewrite (join_lookup_slot data order _ (thread_of n K i)) in Hx.
    + by injection Hx as <-.
    + done.
    + rewrite Hperm. apply list_elem_of_lookup. exists i.
      by apply partition_lookup.
    + by rewrite length_replicate.
Qed.

Lemma effective_K_min n K : effective_K n K = Nat.min K n.
Proof. unfold effective_K. destruct (Nat.ltb_spec n K); lia. Qed.

(** The partial results, block by block. *)
Lemma partials_blocks (data : list A) K :
  partial_of data <$> partition (length data) K
  = (λ i, std_tr (block data K i) value_init) <$> seq 0 K.
Proof. rewrite partition_threads, <- list_fmap_compose. done. Qed.

(** What a call on a non-empty sequence with at least one worker leaves
    behind, whatever the order in which its workers finish. *)
Lemma run_scheduled_nondegenerate schedule (data : list A) init K :
  (∀ ths, schedule ths ≡ₚ ths) → data ≠ [] → 1 ≤ K →
  run_scheduled schedule data init K
  = Outcome (merge reduce_op init (reduced value_init data K))
            (reduced value_init data K)
            (partition (length data) (Nat.min K (length data))).
Proof.
  intros Hs Hd HK. unfold run_scheduled, reduced_partials.
  destruct data as [|a data]; [done|].
  replace (length (a :: data) =? 0) with false by done.
  replace (K =? 0) with false by (symmetry; apply Nat.eqb_neq; lia).
  cbn [orb]. rewrite effective_K_min.
  set (K' := Nat.min K (length (a :: data))).
  fold (partition (length (a :: data)) K').
  rewrite (join_partition _ (length (a :: data)) K') by apply Hs.
  rewrite partials_blocks. done.
Qed.

(** ** Blocks tile the sequence; folding block by block *)

Lemma blocks_concat (data : list A) K m :
  concat (block data K <$> seq 0 m)
  = take (block_bound (length data) K m) data.
Proof.
  induction m as [|m IH]; [done|].
  rewrite seq_S, fmap_app, concat_app, IH. cbn [fmap list_fmap concat Nat.add].
  rewrite app_nil_r. unfold block, range. rewrite take_take_drop.
  f_equal. pose proof (block_bound_step (length data) K m). lia.
Qed.

Lemma blocks_tile (data : list A) K :
  0 < K → concat (block data K <$> seq 0 K) = data.
Proof.
  intros HK. rewrite blocks_concat, block_bound_full by done.
  by apply take_ge.
Qed.

Lemma merge_assoc x y (ps : list T) :
  associative reduce_op →
  reduce_op x (merge reduce_op y ps) = merge reduce_op (reduce_op x y) ps.
Proof.
  intros Hassoc. unfold merge. revert y.
  induction ps as [|p ps IH]; intros y; [done|].
  cbn. rewrite IH, Hassoc. done.
Qed.

Lemma transform_reduce_assoc x y (blk : list A) :
  associative reduce_op →
  reduce_op x (tr blk y) = tr blk (reduce_op x y).
Proof.
  intros Hassoc. unfold transform_reduce. revert y.
  induction blk as [|a blk IH]; intros y; [done|].
  cbn. rewrite IH, Hassoc. done.
Qed.

Lemma transform_reduce_app (b1 b2 : list A) x :
  tr (b1 ++ b2) x = tr b2 (tr b1 x).
Proof. apply fold_left_app. Qed.

(** Merging partial results seeded with a right-neutral value is the
    sequential fold over the concatenated blocks. *)
Lemma merge_seeded_blocks (blks : list (list A)) e init :
  associative reduce_op → (∀ x, reduce_op x e = x) →
  merge reduce_op init ((λ blk, tr blk e) <$> blks) = tr (concat blks) init.
Proof.
  intros Hassoc He. revert init.
  induction blks as [|blk blks IH]; intros init; [done|].
  cbn [fmap list_fmap concat]. rewrite transform_reduce_app, <- IH.
  unfold merge. cbn [fold_left].
  by rewrite transform_reduce_assoc, He.
Qed.

Lemma run_scheduled_empty schedule init K :
  run_scheduled schedule [] init K = Outcome init [] [].
Proof. done. Qed.

Lemma run_scheduled_no_workers schedule (data : list A) init :
  run_scheduled schedule data init 0 = Outcome init [] [].
Proof. unfold run_scheduled. by rewrite orb_true_r. Qed.

Lemma seeded_partials_length seed (data : list A) K :
  length (seeded seed data K) = Nat.min K (length data).
Proof. unfold seeded_partials. by rewrite length_fmap, length_seq. Qed.

Lemma seeded_partials_lookup seed (data : list A) K i :
  i < Nat.min K (length data) →
  seeded seed data K !! i
  = Some (tr (block data (Nat.min K (length data)) i) seed).
Proof.
  intros Hi. unfold seeded_partials.
  rewrite list_lookup_fmap, lookup_seq_lt by done. done.
Qed.

Lemma seeded_partials_blocks seed (data : list A) K :
  seeded seed data K
  = (λ blk, tr blk seed)
      <$> (block data (Nat.min K (length data))
             <$> seq 0 (Nat.min K (length data))).
Proof. unfold seeded_partials. by rewrite <- list_fmap_compose. Qed.

(** *** The grouping of [std::transform_reduce] *)

Lemma std_transform_reduce_short (blk : list A) init :
  length blk < 4 → std_tr blk init = tr blk init.
Proof.
  intros Hlen. destruct blk as [|x0 [|x1 [|x2 [|x3 rest]]]]; try done.
  cbn in Hlen. lia.
Qed.

Lemma std_transform_reduce_four x0 x1 x2 x3 (rest : list A) init :
  std_tr (x0 :: x1 :: x2 :: x3 :: rest) init
  = std_tr rest
      (reduce_op init
         (reduce_op (reduce_op (transform_op x0) (transform_op x1))
                    (reduce_op (transform_op x2) (transform_op x3)))).
Proof. done. Qed.

(** Induction following the two loops of [std::transform_reduce]. *)
Lemma four_step_ind (P : list A → Prop) :
  (∀ blk, length blk < 4 → P blk) →
  (∀ x0 x1 x2 x3 rest, P rest → P (x0 :: x1 :: x2 :: x3 :: rest)) →
  ∀ blk, P blk.
Proof.
  intros Hshort Hfour blk.
  assert (∀ n blk, length blk ≤ n → P blk) as Hall.
  { induction n as [|n IH]; intros l Hl.
    - apply Hshort. lia.
    - destruct l as [|x0 [|x1 [|x2 [|x3 rest]]]];
        try (apply Hshort; cbn; lia).
      apply Hfour, IH. cbn in Hl. lia. }
  by apply (Hall (length blk)).
Qed.

(** For an associative operation the grouping is invisible:
    [std::transform_reduce] is the left fold. *)
Lemma std_transform_reduce_assoc (blk : list A) init :
  associative reduce_op → std_tr blk init = tr blk init.
Proof.
  intros Hassoc. revert init.
  induction blk as [blk Hlen|x0 x1 x2 x3 rest IH] using four_step_ind;
    intros init.
  - by apply std_transform_reduce_short.
  - rewrite std_transform_reduce_four, IH.
    unfold transform_reduce. cbn [fold_left]. by rewrite !Hassoc.
Qed.

Lemma reduced_partials_length seed (data : list A) K :
  length (reduced seed data K) = Nat.min K (length data).
Proof. unfold reduced_partials. by rewrite length_fmap, length_seq. Qed.

Lemma reduced_partials_lookup seed (data : list A) K i :
  i < Nat.min K (length data) →
  reduced seed data K !! i
  = Some (std_tr (block data (Nat.min K (length data)) i) seed).
Proof.
  intros Hi. unfold reduced_partials.
  rewrite list_lookup_fmap, lookup_seq_lt by done. done.
Qed.

Lemma reduced_partials_assoc seed (data : list A) K :
  associative reduce_op → reduced seed data K = seeded seed data K.
Proof.
  intros Hassoc. unfold reduced_partials, seeded_partials.
  apply list_fmap_ext. intros _ i _. by apply std_transform_reduce_assoc.
Qed.

(** With an associative operation and a right-neutral seed the engine is
    the sequential fold. *)
Lemma engine_sequential (data : list A) init K :
  associative reduce_op → (∀ x, reduce_op x value_init = x) → 1 ≤ K →
  engine data init K = tr data init.
Proof.
  intros Hassoc He HK. destruct data as [|a data]; [done|].
  unfold manual_parallel_transform_reduce, run_engine.
  rewrite run_scheduled_nondegenerate by done. cbn [result].
  rewrite reduced_partials_assoc by done.
  rewrite seeded_partials_blocks, merge_seeded_blocks by done.
  rewrite blocks_tile; [done|]. cbn [length]. lia.
Qed.

End EngineFacts.

(** ** The engine's contract *)

Section EngineClaims.
Context {A T : Type} `{ValueInit T}.
Variable reduce_op : T → T → T.
Variable transform_op : A → T.

Local Abbreviation tr := (transform_reduce reduce_op transform_op).
Local Abbreviation std_tr := (std_transform_reduce reduce_op transform_op).
Local Abbreviation partial_of := (partial_of reduce_op transform_op).
Local Abbreviation run_scheduled := (run_scheduled reduce_op transform_op).
Local Abbreviation run_engine := (run_engine reduce_op transform_op).
Local Abbreviation engine :=
  (manual_parallel_transform_reduce reduce_op transform_op).
Local Abbreviation seeded := (seeded_partials reduce_op transform_op).
Local Abbreviation reduced := (reduced_partials reduce_op transform_op).

(** C1. For an associative combine operation whose neutral element is the
    value-initialised [T{}], any transform, any sequence, any initial value
    and any [K >= 1], the engine returns the sequential left fold of the
    combine operation over the transformed elements started from the
    initial value; hence any two worker counts [K, K' >= 1] give the same
    result. *)
Theorem engine_is_sequential_fold (data : list A) (init : T) (K K' : nat) :
  associative reduce_op → neutral reduce_op value_init →
  1 ≤ K → 1 ≤ K' →
  engine data init K = tr data init
  ∧ engine data init K' = engine data init K.
Proof.
  intros Hassoc Hne HK HK'.
  assert (∀ x, reduce_op x value_init = x) as He by (intros x; apply Hne).
  by rewrite !engine_sequential.
Qed.

(** C3 (as amended). On a non-empty sequence with [K >= 1], for every
    combine operation, every per-block [std::transform_reduce] is seeded
    with [T{}] and never with the caller's initial value: the partial
    results are the same for every initial value, and the initial value
    enters exactly once, as the seed of the final merge. For an associative
    operation the partial results are the per-block left folds from [T{}],
    which are the folds seeded with the neutral element of the operation
    whenever that element is [T{}]. *)
Theorem initial_value_enters_once schedule (data : list A) init K :
  (∀ ths, schedule ths ≡ₚ ths) → data ≠ [] → 1 ≤ K →
  let out := run_scheduled schedule data init K in
  partials out = reduced value_init data K
  ∧ (∀ init', partials (run_scheduled schedule data init' K) = partials out)
  ∧ result out = merge reduce_op init (partials out)
  ∧ (associative reduce_op → partials out = seeded value_init data K)
  ∧ (∀ e, associative reduce_op → neutral reduce_op e → value_init = e →
          partials out = seeded e data K).
Proof.
  intros Hs Hd HK out. subst out.
  rewrite run_scheduled_nondegenerate by done. cbn [partials result].
  split; [done|]. split.
  { intros init'. by rewrite run_scheduled_nondegenerate. }
  split; [done|]. split.
  - intros Hassoc. by apply reduced_partials_assoc.
  - intros e Hassoc _ <-. by apply reduced_partials_assoc.
Qed.

(** C4. On a non-empty sequence with [K >= 1] the engine spawns
    [min K n] workers, worker [i] owning slot [i] and block [i]; whatever
    the order in which they finish, slot [i] holds the transform-then-fold
    value of block [i] after the join, that is what [std::transform_reduce]
    returns on the block from [T{}] (for an associative operation, the left
    fold of the block), and the returned value is the left fold of the
    combine operation over these partial results in increasing block index
    order, started from the caller's initial value. *)
Theorem merge_in_block_order schedule (data : list A) init K :
  (∀ ths, schedule ths ≡ₚ ths) → data ≠ [] → 1 ≤ K →
  let out := run_scheduled schedule data init K in
  let eK := Nat.min K (length data) in
  length (threads out) = eK
  ∧ (∀ i, i < eK → ∃ th,
        threads out !! i = Some th ∧ slot th = i
        ∧ partial_of data th = std_tr (block data eK i) value_init
        ∧ (associative reduce_op →
           partial_of data th = tr (block data eK i) value_init)
        ∧ partials out !! i = Some (partial_of data th))
  ∧ result out = fold_left reduce_op (partial_of data <$> threads out) init
  ∧ result out
    = fold_left reduce_op
        ((λ i, std_tr (block data eK i) value_init) <$> seq 0 eK) init
  ∧ engine data init K = result out.
Proof.
  intros Hs Hd HK out eK. subst out.
  unfold manual_parallel_transform_reduce, run_engine.
  rewrite !run_scheduled_nondegenerate by done.
  cbn [partials result threads]. fold eK.
  split; [apply partition_length|].
  split; [|split; [|done]].
  - intros i Hi. exists (thread_of (length data) eK i).
    split; [by apply partition_lookup|].
    split; [done|]. split; [done|].
    split; [intros Hassoc; by apply std_transform_reduce_assoc|].
    by apply reduced_partials_lookup.
  - by rewrite partials_blocks.
Qed.

(** C5. On the empty sequence, for every [K], and on every sequence with
    [K = 0], the engine returns the initial value unchanged; no worker is
    spawned, [partials] is never filled and no element is read. *)
Theorem degenerate_calls schedule (data : list A) init K :
  (engine [] init K = init
   ∧ run_scheduled schedule [] init K = Outcome init [] []
   ∧ elements_read (run_scheduled schedule [] init K) = [])
  ∧ (engine data init 0 = init
     ∧ run_scheduled schedule data init 0 = Outcome init [] []
     ∧ elements_read (run_scheduled schedule data init 0) = []).
Proof.
  unfold manual_parallel_transform_reduce, run_engine.
  rewrite !run_scheduled_empty, !run_scheduled_no_workers. done.
Qed.

(** C6. On a sequence of length [n > 0] with [K >= 1] the engine uses
    [min K n] workers and partial results; so for [K > n] it returns what
    the call with [K = n] returns. *)
Theorem effective_worker_count (data : list A) init K :
  data ≠ [] → 1 ≤ K →
  let out := run_engine data init K in
  length (threads out) = Nat.min K (length data)
  ∧ length (partials out) = Nat.min K (length data)
  ∧ (length data < K →
     engine data init K = engine data init (length data)).
Proof.
  intros Hd HK out. subst out.
  assert (1 ≤ length data) by (destruct data; [done|cbn; lia]).
  unfold manual_parallel_transform_reduce, run_engine.
  rewrite !run_scheduled_nondegenerate by done.
  cbn [partials result threads].
  rewrite partition_length, reduced_partials_length.
  repeat split. intros Hlt. unfold reduced_partials.
  rewrite Nat.min_id. by rewrite Nat.min_r by lia.
Qed.

(** C7. For an associative combine operation with neutral element [e],
    every sequence, initial value, transform and [K >= 1]:
    [reduce(data, init, K) = combine(init, reduce(data, e, K))]. *)
Theorem identity_property (data : list A) init e K :
  associative reduce_op → neutral reduce_op e → 1 ≤ K →
  engine data init K = reduce_op init (engine data e K).
Proof.
  intros Hassoc Hne HK.
  assert (reduce_op init e = init) as He by apply Hne.
  destruct data as [|a data]; [done|].
  unfold manual_parallel_transform_reduce, run_engine.
  rewrite !run_scheduled_nondegenerate by done. cbn [result].
  by rewrite merge_assoc, He.
Qed.

(** C10. The engine has no identity-value argument: whatever the combine
    operation (its neutral element need not be [T{}], it need not have
    one), the partial result of every block is the [std::transform_reduce]
    of that block seeded with the value-initialised [T{}]; for an
    associative operation that is the left fold of the block from [T{}]. *)
Theorem partials_seeded_with_value_init schedule (data : list A) init K i :
  (∀ ths, schedule ths ≡ₚ ths) → data ≠ [] → 1 ≤ K →
  i < Nat.min K (length data) →
  let out := run_scheduled schedule data init K in
  ∃ th, threads out !! i = Some th
    ∧ partials out !! i
      = Some (std_tr (range data (bs th) (be th)) value_init)
    ∧ range data (bs th) (be th) = block data (Nat.min K (length data)) i
    ∧ (associative reduce_op →
       partials out !! i = Some (tr (range data (bs th) (be th)) value_init)).
Proof.
  intros Hs Hd HK Hi out. subst out.
  rewrite run_scheduled_nondegenerate by done. cbn [partials threads].
  exists (thread_of (length data) (Nat.min K (length data)) i).
  split; [by apply partition_lookup|].
  split; [by apply reduced_partials_lookup|]. split; [done|].
  intros Hassoc. rewrite reduced_partials_lookup by done.
  f_equal. by apply std_transform_reduce_assoc.
Qed.

End EngineClaims.

(** ** The partitioning *)

Lemma size_of_thread_of n K i :
  size_of (thread_of n K i) = block_size (n / K) (n mod K) i.
Proof. unfold size_of. cbn [bs be thread_of]. rewrite block_bound_S. lia. Qed.

Lemma reads_prefix n K m :
  concat (reads <$> (thread_of n K <$> seq 0 m)) = seq 0 (block_bound n K m).
Proof.
  induction m as [|m IH]; [done|].
  rewrite seq_S, !fmap_app, concat_app, IH.
  cbn [fmap list_fmap concat Nat.add]. rewrite app_nil_r.
  unfold reads. cbn [bs be thread_of].
  pose proof (block_bound_step n K m) as Hle.
  replace (block_bound n K (S m))
    with (block_bound n K m + (block_bound n K (S m) - block_bound n K m))
    at 2 by lia.
  by rewrite seq_app.
Qed.

Lemma sizes_prefix n K m :
  sum_list_with size_of (thread_of n K <$> seq 0 m) = block_bound n K m.
Proof.
  induction m as [|m IH]; [done|].
  rewrite seq_S, fmap_app, sum_list_with_app, IH.
  cbn [fmap list_fmap sum_list_with Nat.add].
  rewrite size_of_thread_of, block_bound_S. lia.
Qed.

(** Every index below the end of block [m - 1] lies in one of the first [m]
    blocks. *)
Lemma block_of_index n K m j :
  j < block_bound n K m →
  ∃ i, i < m ∧ block_bound n K i ≤ j < block_bound n K (S i).
Proof.
  induction m as [|m IH]; intros Hj.
  - rewrite block_bound_0 in Hj. lia.
  - destruct (Nat.lt_ge_cases j (block_bound n K m)) as [Hlt|Hge].
    + destruct (IH Hlt) as (i & Hi & Hb). exists i. split; [lia|done].
    + exists m. split; [lia|]. split; done.
Qed.

(** Two blocks that hold a common index are the same block. *)
Lemma block_of_index_unique n K i i' j :
  block_bound n K i ≤ j < block_bound n K (S i) →
  block_bound n K i' ≤ j < block_bound n K (S i') →
  i = i'.
Proof.
  intros [Hl Hu] [Hl' Hu'].
  destruct (Nat.lt_trichotomy i i') as [Hlt|[->|Hgt]]; [|done|].
  - pose proof (block_bound_mono n K (S i) i' ltac:(lia)). lia.
  - pose proof (block_bound_mono n K (S i') i ltac:(lia)). lia.
Qed.

Lemma ceil_div_exact n K :
  0 < K → n mod K = 0 → ceil_div n K = n / K.
Proof.
  intros HK Hrem. unfold ceil_div. symmetry.
  apply (Nat.div_unique _ _ _ (K - 1)); [lia|].
  pose proof (Nat.div_mod_eq n K). lia.
Qed.

Lemma ceil_div_inexact n K :
  0 < K → n mod K ≠ 0 → ceil_div n K = n / K + 1.
Proof.
  intros HK Hrem. unfold ceil_div. symmetry.
  pose proof (Nat.mod_upper_bound n K ltac:(lia)).
  apply (Nat.div_unique _ _ _ (n mod K - 1)); [lia|].
  pose proof (Nat.div_mod_eq n K). lia.
Qed.

(** C2. For [1 <= K <= n] the partitioning with [base = n / K] and
    [rem = n % K] yields exactly [K] blocks; block [i] has [base + 1]
    elements if [i < rem] and [base] otherwise; the first block starts at
    index 0, each block starts where the previous one ends and the last one
    ends at [n]; every index of [0, n) lies in exactly one block (the index
    ranges of the blocks, concatenated, list [0, n) once and in order); the
    sizes sum to [n]; each size is the floor or the ceiling of [n / K]; and
    no block is empty. *)
Theorem partition_blocks n K :
  1 ≤ K → K ≤ n →
  let base := n / K in
  let rem := n mod K in
  let blocks := partition n K in
  length blocks = K
  ∧ (∀ i, i < K → ∃ th,
        blocks !! i = Some th ∧ slot th = i ∧ bs th ≤ be th
        ∧ size_of th = if i <? rem then base + 1 else base)
  ∧ (∀ th, blocks !! 0 = Some th → bs th = 0)
  ∧ (∀ i th th', blocks !! i = Some th → blocks !! S i = Some th' →
        bs th' = be th)
  ∧ (∀ th, blocks !! (K - 1) = Some th → be th = n)
  ∧ (∀ j, j < n → ∃ i th,
        blocks !! i = Some th ∧ bs th ≤ j < be th
        ∧ ∀ i' th', blocks !! i' = Some th' → bs th' ≤ j < be th' → i' = i)
  ∧ concat (reads <$> blocks) = seq 0 n
  ∧ sum_list_with size_of blocks = n
  ∧ (∀ th, th ∈ blocks →
        (size_of th = n / K ∨ size_of th = ceil_div n K)
        ∧ n / K ≤ size_of th ≤ ceil_div n K
        ∧ 1 ≤ size_of th).
Proof.
  intros HK Hn base rem blocks.
  assert (∀ i th, blocks !! i = Some th → i < K ∧ th = thread_of n K i)
    as Hlook.
  { intros i th Hth. assert (i < K) as Hi.
    { rewrite <- (partition_length n K). by apply lookup_lt_Some in Hth. }
    subst blocks. rewrite partition_lookup in Hth by done.
    by injection Hth as <-. }
  split; [apply partition_length|].
  split.
  { intros i Hi. exists (thread_of n K i).
    split; [by apply partition_lookup|]. split; [done|].
    split; [apply block_bound_step|].
    rewrite size_of_thread_of. unfold block_size. fold base rem.
    destruct (i <? rem); lia. }
  split.
  { intros th Hth. by destruct (Hlook _ _ Hth) as [_ ->]. }
  split.
  { intros i th th' Hth Hth'.
    destruct (Hlook _ _ Hth) as [_ ->]. by destruct (Hlook _ _ Hth') as [_ ->]. }
  split.
  { intros th Hth. destruct (Hlook _ _ Hth) as [_ ->]. cbn [be thread_of].
    replace (S (K - 1)) with K by lia. by apply block_bound_full. }
  split.
  { intros j Hj.
    destruct (block_of_index n K K j) as (i & Hi & Hb).
    { rewrite block_bound_full; lia. }
    exists i, (thread_of n K i).
    split; [by apply partition_lookup|]. split; [done|].
    intros i' th' Hth' Hb'. destruct (Hlook _ _ Hth') as [_ ->].
    by apply (block_of_index_unique n K i' i j). }
  split.
  { subst blocks. rewrite partition_threads, reads_prefix.
    by rewrite block_bound_full. }
  split.
  { subst blocks. rewrite partition_threads, sizes_prefix.
    by apply block_bound_full. }
  intros th [i Hth]%list_elem_of_lookup.
  destruct (Hlook _ _ Hth) as [Hi ->].
  rewrite size_of_thread_of.
  pose proof (block_size_pos n K i ltac:(lia)) as Hpos.
  unfold block_size in *.
  destruct (Nat.ltb_spec i (n mod K)) as [Hlt|Hge].
  - rewrite ceil_div_inexact by lia. lia.
  - destruct (Nat.eq_dec (n mod K) 0) as [H0|H0].
    + rewrite ceil_div_exact by lia. lia.
    + rewrite ceil_div_inexact by lia. lia.
Qed.

(** ** The worked example *)

(** C8. For [1,2,3,4,5] with addition, squaring and initial value 0: with
    [K = 2] the blocks are [0,3) of size 3 and [3,5) of size 2, the partial
    results are 14 = 1+4+9 and 41 = 16+25, and the merged result is 55; and
    the engine returns 55 for every [K] from 1 to 5. *)
Theorem example_squares :
  let data := [1; 2; 3; 4; 5]%Z in
  let out := run_engine Z.add sq data 0%Z 2 in
  ((λ th, (bs th, be th, size_of th)) <$> threads out) = [(0, 3, 3); (3, 5, 2)]
  ∧ partials out = [14; 41]%Z
  ∧ (14 = 1 + 4 + 9 ∧ 41 = 16 + 25)%Z
  ∧ result out = 55%Z
  ∧ manual_parallel_transform_reduce Z.add sq data 0%Z 2 = 55%Z
  ∧ Forall (λ K, manual_parallel_transform_reduce Z.add sq data 0%Z K = 55%Z)
           (seq 1 5).
Proof.
  cbv zeta. vm_compute. repeat split. repeat constructor.
Qed.

(** ** The sweep driver *)

Lemma sweep_upto_S m measure :
  sweep_upto (S m) measure
  = sweep_step measure (sweep_upto m measure) (S m).
Proof. unfold sweep_upto. by rewrite seq_S, fold_left_app. Qed.

Lemma sweep_step_table measure st K :
  table (sweep_step measure st K) = table st ++ [(K, measure K)].
Proof. unfold sweep_step. by destruct (Qlt_le_dec _ _). Qed.

Lemma sweep_upto_table m measure :
  table (sweep_upto m measure) = (λ K, (K, measure K)) <$> seq 1 m.
Proof.
  induction m as [|m IH]; [done|].
  by rewrite sweep_upto_S, sweep_step_table, IH, seq_S, fmap_app.
Qed.

(** Loop invariant of the sweep: either no recorded time was below the
    initial [best_time] and nothing was updated, or [best_K] is the first
    worker count whose recorded time is minimal so far. *)
Lemma sweep_upto_invariant m measure :
  let st := sweep_upto m measure in
  (best_time st = initial_best_time ∧ best_K st = 1
   ∧ ∀ K, 1 ≤ K ≤ m → (initial_best_time <= measure K)%Q)
  ∨ (1 ≤ best_K st ≤ m ∧ best_time st = measure (best_K st)
     ∧ (∀ K, 1 ≤ K ≤ m → (measure (best_K st) <= measure K)%Q)
     ∧ (∀ K, 1 ≤ K < best_K st → (measure (best_K st) < measure K)%Q)).
Proof.
  induction m as [|m IH]; cbn zeta in *.
  { left. repeat split. intros K HK. lia. }
  rewrite sweep_upto_S. unfold sweep_step.
  destruct (Qlt_le_dec (measure (S m)) (best_time (sweep_upto m measure)))
    as [Hlt|Hge]; cbn [best_time best_K].
  - right. split; [lia|]. split; [done|].
    assert (∀ K, 1 ≤ K ≤ m → (measure (S m) < measure K)%Q) as Hbelow.
    { intros K HK. destruct IH as [(Hbt & _ & Hall)|(_ & Hbt & Hall & _)].
      - rewrite Hbt in Hlt. specialize (Hall K HK). lra.
      - rewrite Hbt in Hlt. specialize (Hall K HK). lra. }
    split.
    + intros K HK. destruct (Nat.eq_dec K (S m)) as [->|Hne]; [lra|].
      apply Qlt_le_weak, Hbelow. lia.
    + intros K HK. apply Hbelow. lia.
  - destruct IH as [(Hbt & HbK & Hall)|(HbK & Hbt & Hall & Hfirst)].
    + left. split; [done|]. split; [done|].
      intros K HK. destruct (Nat.eq_dec K (S m)) as [->|Hne].
      * by rewrite <- Hbt.
      * apply Hall. lia.
    + right. split; [lia|]. split; [done|]. split; [|done].
      intros K HK. destruct (Nat.eq_dec K (S m)) as [->|Hne].
      * by rewrite <- Hbt.
      * apply Hall. lia.
Qed.

Lemma sweep_bound_no_wrap hw :
  (N.of_nat hw * 2 < unsigned_modulus)%N → sweep_bound hw = hw * 2.
Proof. intros Hlt. unfold sweep_bound. rewrite N.mod_small by done. lia. Qed.

Lemma sweep_as_upto hw measure :
  sweep hw measure = sweep_upto (sweep_bound hw) measure.
Proof. done. Qed.

(** At [hw = 2^31] the product [hw * 2] wraps to 0 and the loop body never
    runs. *)
Lemma sweep_bound_wraps : sweep_bound (N.to_nat 2147483648) = 0.
Proof. unfold sweep_bound. rewrite N2Nat.id. reflexivity. Qed.

Lemma sweep_wrapped measure :
  sweep (N.to_nat 2147483648) measure = sweep_init.
Proof. rewrite sweep_as_upto, sweep_bound_wraps. reflexivity. Qed.

(** A sweep in which some run is faster than the initial [best_time]
    reports the first worker count with the minimal recorded time. *)
Lemma sweep_upto_first_minimum m measure :
  (∃ K, 1 ≤ K ≤ m ∧ (measure K < initial_best_time)%Q) →
  let st := sweep_upto m measure in
  1 ≤ best_K st ≤ m
  ∧ best_time st = measure (best_K st)
  ∧ selects_first_minimum st.
Proof.
  intros (K0 & HK0 & Hfast) st.
  assert (table st = (λ K, (K, measure K)) <$> seq 1 m) as Htbl
    by apply sweep_upto_table.
  destruct (sweep_upto_invariant m measure)
    as [(_ & _ & Hall)|(HbK & Hbt & Hall & Hfirst)].
  { specialize (Hall K0 HK0). lra. }
  change (sweep_upto m measure) with st in HbK, Hbt, Hall, Hfirst.
  split; [done|]. split; [done|].
  exists (measure (best_K st)). rewrite Htbl. split.
  - apply list_elem_of_fmap. exists (best_K st). split; [done|].
    apply elem_of_seq. lia.
  - intros K' t' (K & [= -> ->] & HK%elem_of_seq)%list_elem_of_fmap.
    split; [apply Hall; lia|].
    intros Htie. destruct (Nat.lt_ge_cases K (best_K st)) as [Hlt|Hge]; [|done].
    specialize (Hfirst K ltac:(lia)). lra.
Qed.

Lemma clock_bounded_below_initial t :
  clock_bounded t → (t < initial_best_time)%Q.
Proof.
  unfold clock_bounded. intros Ht.
  apply (Qle_lt_trans _ max_elapsed_ms); [done|]. reflexivity.
Qed.

(** C9. As [main] runs the sweep, with a hardware thread count whose double
    fits [unsigned] and times that [measure_ms] can return: the table holds
    one line per [K] from 1 through [2 * hw], and the reported best [K] is in
    that range, has a recorded time [<=] every recorded time, and is the
    smallest [K] among those that tie with it. *)
Theorem sweep_selects_first_minimum hint measure :
  (N.of_nat (hardware_threads hint) * 2 < unsigned_modulus)%N →
  (∀ K, 1 ≤ K ≤ hardware_threads hint * 2 → clock_bounded (measure K)) →
  let hw := hardware_threads hint in
  let st := sweep_main hint measure in
  table st = (λ K, (K, measure K)) <$> seq 1 (hw * 2)
  ∧ 1 ≤ best_K st ≤ hw * 2
  ∧ best_time st = measure (best_K st)
  ∧ selects_first_minimum st.
Proof.
  intros Hfit Hclock hw st. subst st. unfold sweep_main. fold hw in Hfit, Hclock |- *.
  pose proof (hardware_threads_pos hint) as Hpos. fold hw in Hpos.
  rewrite sweep_as_upto, (sweep_bound_no_wrap hw Hfit).
  split; [apply sweep_upto_table|].
  apply sweep_upto_first_minimum. exists 1. split; [lia|].
  apply clock_bounded_below_initial, Hclock. lia.
Qed.

(** ** The claim that fails as stated *)

(** C3 as stated fails. Multiplication on the integers has neutral element
    1, but the single block of [2, 3] is folded from [T{}] = 0: the partial
    result is 0 * 2 * 3 = 0, not the 1 * 2 * 3 = 6 a fold seeded with the
    neutral element yields, and the call returns 0. *)
Lemma product_blocks_not_seeded_with_neutral :
  neutral Z.mul 1%Z
  ∧ partials (run_engine Z.mul id [2; 3]%Z 1%Z 1) = [0%Z]
  ∧ seeded_partials Z.mul id 1%Z [2; 3]%Z 1 = [6%Z]
  ∧ partials (run_engine Z.mul id [2; 3]%Z 1%Z 1)
    ≠ seeded_partials Z.mul id 1%Z [2; 3]%Z 1
  ∧ manual_parallel_transform_reduce Z.mul id [2; 3]%Z 1%Z 1 = 0%Z.
Proof.
  split; [intros x; lia|].
  split; [reflexivity|]. split; [reflexivity|].
  split; [|reflexivity]. vm_compute. discriminate.
Qed.

(** ** The theorems at concrete inputs *)

Lemma Z_add_associative : associative Z.add.
Proof. intros x y z. lia. Defined.

Lemma Z_add_neutral : neutral Z.add 0%Z.
Proof. intros x. lia. Defined.

Lemma engine_is_sequential_fold_witness :
  associative Z.add ∧ neutral Z.add value_init ∧ 1 ≤ 2 ∧ 1 ≤ 3
  ∧ manual_parallel_transform_reduce Z.add sq [1; 2; 3; 4; 5]%Z 7%Z 2
    = transform_reduce Z.add sq [1; 2; 3; 4; 5]%Z 7%Z
  ∧ manual_parallel_transform_reduce Z.add sq [1; 2; 3; 4; 5]%Z 7%Z 3
    = manual_parallel_transform_reduce Z.add sq [1; 2; 3; 4; 5]%Z 7%Z 2.
Proof.
  split; [exact Z_add_associative|]. split; [exact Z_add_neutral|].
  split; [lia|]. split; [lia|].
  apply (engine_is_sequential_fold Z.add sq [1; 2; 3; 4; 5]%Z 7%Z 2 3).
  - exact Z_add_associative.
  - exact Z_add_neutral.
  - lia.
  - lia.
Defined.

Lemma initial_value_enters_once_witness :
  (∀ ths : list thread, reverse ths ≡ₚ ths) ∧ [1; 2; 3; 4; 5]%Z ≠ [] ∧ 1 ≤ 2
  ∧ partials (run_scheduled Z.add sq reverse [1; 2; 3; 4; 5]%Z 7%Z 2)
    = reduced_partials Z.add sq value_init [1; 2; 3; 4; 5]%Z 2.
Proof.
  split; [exact reverse_Permutation|]. split; [discriminate|].
  split; [lia|].
  pose proof (initial_value_enters_once Z.add sq reverse
                [1; 2; 3; 4; 5]%Z 7%Z 2
                reverse_Permutation ltac:(discriminate) ltac:(lia))
    as (Hseed & _).
  exact Hseed.
Defined.

Lemma merge_in_block_order_witness :
  (∀ ths : list thread, reverse ths ≡ₚ ths) ∧ [1; 2; 3; 4; 5]%Z ≠ [] ∧ 1 ≤ 2
  ∧ result (run_scheduled Z.add sq reverse [1; 2; 3; 4; 5]%Z 7%Z 2)
    = fold_left Z.add
        (partial_of Z.add sq [1; 2; 3; 4; 5]%Z
           <$> threads (run_scheduled Z.add sq reverse
                          [1; 2; 3; 4; 5]%Z 7%Z 2))
        7%Z.
Proof.
  split; [exact reverse_Permutation|]. split; [discriminate|].
  split; [lia|].
  pose proof (merge_in_block_order Z.add sq reverse
                [1; 2; 3; 4; 5]%Z 7%Z 2
                reverse_Permutation ltac:(discriminate) ltac:(lia))
    as (_ & _ & Hfold & _).
  exact Hfold.
Defined.

Lemma effective_worker_count_witness :
  [1; 2; 3]%Z ≠ [] ∧ 1 ≤ 8
  ∧ length (threads (run_engine Z.add sq [1; 2; 3]%Z 0%Z 8)) = 3
  ∧ length (partials (run_engine Z.add sq [1; 2; 3]%Z 0%Z 8)) = 3.
Proof.
  split; [discriminate|]. split; [lia|].
  pose proof (effective_worker_count Z.add sq [1; 2; 3]%Z 0%Z 8
                ltac:(discriminate) ltac:(lia)) as (Hths & Hps & _).
  split; [exact Hths|exact Hps].
Defined.

Lemma identity_property_witness :
  associative Z.add ∧ neutral Z.add 0%Z ∧ 1 ≤ 2
  ∧ manual_parallel_transform_reduce Z.add sq [1; 2; 3; 4; 5]%Z 7%Z 2
    = (7 + manual_parallel_transform_reduce Z.add sq
             [1; 2; 3; 4; 5]%Z 0%Z 2)%Z.
Proof.
  split; [exact Z_add_associative|]. split; [exact Z_add_neutral|].
  split; [lia|].
  apply (identity_property Z.add sq [1; 2; 3; 4; 5]%Z 7%Z 0%Z 2).
  - exact Z_add_associative.
  - exact Z_add_neutral.
  - lia.
Defined.

Lemma partials_seeded_with_value_init_witness :
  (∀ ths : list thread, reverse ths ≡ₚ ths) ∧ [2; 3; 4]%Z ≠ [] ∧ 1 ≤ 2
  ∧ 1 < Nat.min 2 (length [2; 3; 4]%Z)
  ∧ ∃ th,
      threads (run_scheduled Z.mul id reverse [2; 3; 4]%Z 1%Z 2) !! 1 = Some th
      ∧ partials (run_scheduled Z.mul id reverse [2; 3; 4]%Z 1%Z 2) !! 1
        = Some (std_transform_reduce Z.mul id
                  (range [2; 3; 4]%Z (bs th) (be th)) 0%Z)
      ∧ range [2; 3; 4]%Z (bs th) (be th)
        = block [2; 3; 4]%Z (Nat.min 2 (length [2; 3; 4]%Z)) 1
      ∧ (associative Z.mul →
         partials (run_scheduled Z.mul id reverse [2; 3; 4]%Z 1%Z 2) !! 1
         = Some (transform_reduce Z.mul id
                   (range [2; 3; 4]%Z (bs th) (be th)) 0%Z)).
Proof.
  split; [exact reverse_Permutation|]. split; [discriminate|].
  split; [lia|]. split; [cbn; lia|].
  apply (partials_seeded_with_value_init Z.mul id reverse [2; 3; 4]%Z 1%Z 2 1).
  - exact reverse_Permutation.
  - discriminate.
  - lia.
  - cbn. lia.
Defined.

Lemma partition_blocks_witness :
  1 ≤ 2 ∧ 2 ≤ 5
  ∧ length (partition 5 2) = 2
  ∧ concat (reads <$> partition 5 2) = seq 0 5
  ∧ sum_list_with size_of (partition 5 2) = 5.
Proof.
  split; [lia|]. split; [lia|].
  pose proof (partition_blocks 5 2 ltac:(lia) ltac:(lia))
    as (Hlen & _ & _ & _ & _ & _ & Hreads & Hsum & _).
  split; [exact Hlen|]. split; [exact Hreads|exact Hsum].
Defined.

Lemma tie_measure_clock_bounded K : clock_bounded (tie_measure K).
Proof.
  destruct K as [|[|[|[|K]]]]; vm_compute; discriminate.
Defined.

Lemma sweep_selects_first_minimum_witness :
  (N.of_nat (hardware_threads 2) * 2 < unsigned_modulus)%N
  ∧ (∀ K, 1 ≤ K ≤ hardware_threads 2 * 2 → clock_bounded (tie_measure K))
  ∧ best_K (sweep_main 2 tie_measure) = 2
  ∧ selects_first_minimum (sweep_main 2 tie_measure).
Proof.
  assert (N.of_nat (hardware_threads 2) * 2 < unsigned_modulus)%N as Hfit
    by reflexivity.
  assert (∀ K, 1 ≤ K ≤ hardware_threads 2 * 2
               → clock_bounded (tie_measure K)) as Hclock
    by (intros K _; apply tie_measure_clock_bounded).
  split; [exact Hfit|]. split; [exact Hclock|]. split; [reflexivity|].
  apply (sweep_selects_first_minimum 2 tie_measure Hfit Hclock).
Defined.


(** * Further properties of the engine *)

Section EngineEdges.
Context {A T : Type} `{ValueInit T}.
Variable reduce_op : T → T → T.
Variable transform_op : A → T.

Local Abbreviation tr := (transform_reduce reduce_op transform_op).
Local Abbreviation std_tr := (std_transform_reduce reduce_op transform_op).
Local Abbreviation run_engine := (run_engine reduce_op transform_op).
Local Abbreviation engine :=
  (manual_parallel_transform_reduce reduce_op transform_op).
Local Abbreviation reduced := (reduced_partials reduce_op transform_op).

Lemma merge_fmap {B : Type} (g : B → T) (l : list B) init :
  merge reduce_op init (g <$> l)
  = fold_left (λ acc x, reduce_op acc (g x)) l init.
Proof.
  unfold merge. revert init.
  induction l as [|x l IH]; intros init; [done|]. cbn. apply IH.
Qed.

Lemma block_whole (data : list A) : block data 1 0 = data.
Proof.
  unfold block, range.
  rewrite block_bound_0, (block_bound_full _ 1) by lia.
  rewrite Nat.sub_0_r, drop_0. by apply take_ge.
Qed.

Lemma block_bound_singletons n i : 1 ≤ n → block_bound n n i = i.
Proof.
  intros Hn. unfold block_bound.
  rewrite Nat.div_same, Nat.Div0.mod_same by lia. lia.
Qed.

Lemma block_singleton (data : list A) i x :
  data !! i = Some x → block data (length data) i = [x].
Proof.
  intros Hx. pose proof (lookup_lt_Some _ _ _ Hx) as Hi.
  unfold block, range. rewrite !block_bound_singletons by lia.
  rewrite (drop_S _ _ _ Hx). by replace (S i - i) with 1 by lia.
Qed.

Lemma nonempty_length (data : list A) : data ≠ [] → 1 ≤ length data.
Proof. destruct data; [done|cbn; lia]. Qed.

(** X1. With one worker the single block is the whole sequence: for every
    combine operation the call returns [reduce_op(init, p)] where [p] is
    what [std::transform_reduce] returns on the whole sequence from [T{}];
    for an associative operation [p] is the left fold from [T{}]. *)
Theorem single_worker (data : list A) init :
  data ≠ [] →
  run_engine data init 1
  = Outcome (reduce_op init (std_tr data value_init))
            [std_tr data value_init]
            [Thread 0 0 (length data)]
  ∧ (associative reduce_op →
     engine data init 1 = reduce_op init (tr data value_init)).
Proof.
  intros Hd. pose proof (nonempty_length data Hd) as Hn.
  assert (run_engine data init 1
          = Outcome (reduce_op init (std_tr data value_init))
                    [std_tr data value_init]
                    [Thread 0 0 (length data)]) as Hrun.
  { unfold run_engine. rewrite run_scheduled_nondegenerate by done.
    unfold reduced_partials. rewrite Nat.min_l by done.
    cbn [seq fmap list_fmap merge fold_left]. rewrite block_whole.
    f_equal. rewrite partition_threads. cbn [seq fmap list_fmap].
    unfold thread_of. by rewrite block_bound_0, block_bound_full by lia. }
  split; [done|]. intros Hassoc.
  unfold manual_parallel_transform_reduce. rewrite Hrun. cbn [result].
  by rewrite std_transform_reduce_assoc.
Qed.

(** X2. With at least as many workers as elements every block is one
    element: the call returns the left fold, from [init], of
    [acc -> reduce_op(acc, reduce_op(T{}, transform_op(x)))] over the
    sequence, for every combine operation. *)
Theorem one_element_per_worker (data : list A) init K :
  data ≠ [] → length data ≤ K →
  partials (run_engine data init K)
  = (λ x, reduce_op value_init (transform_op x)) <$> data
  ∧ engine data init K
    = fold_left
        (λ acc x, reduce_op acc (reduce_op value_init (transform_op x)))
        data init.
Proof.
  intros Hd HK. pose proof (nonempty_length data Hd) as Hn.
  assert (reduced value_init data K
          = (λ x, reduce_op value_init (transform_op x)) <$> data) as Hps.
  { apply (list_eq_same_length _ _ (length data)).
    - by rewrite length_fmap.
    - rewrite reduced_partials_length. lia.
    - intros i x y Hi Hx Hy.
      rewrite reduced_partials_lookup in Hx by lia.
      rewrite Nat.min_r in Hx by lia.
      destruct (lookup_lt_is_Some_2 data i Hi) as [a Ha].
      rewrite (block_singleton _ _ _ Ha) in Hx.
      rewrite list_lookup_fmap, Ha in Hy. cbn in Hx, Hy. congruence. }
  unfold manual_parallel_transform_reduce, run_engine.
  rewrite run_scheduled_nondegenerate by (done || lia).
  cbn [partials result]. rewrite Hps. split; [done|]. apply merge_fmap.
Qed.

End EngineEdges.

(** ** Memory safety and balance of the blocks *)

Lemma thread_of_in_bounds n K i :
  i < K →
  slot (thread_of n K i) < K
  ∧ bs (thread_of n K i) ≤ be (thread_of n K i)
  ∧ be (thread_of n K i) ≤ n.
Proof.
  intros Hi. cbn [slot bs be thread_of].
  split; [done|]. split; [apply block_bound_step|].
  rewrite <- (block_bound_full n K) at 2 by lia.
  apply block_bound_mono. lia.
Qed.

Lemma partition_slots n K : slot <$> partition n K = seq 0 K.
Proof.
  rewrite partition_threads, <- list_fmap_compose.
  rewrite (list_fmap_ext _ id) by done. apply list_fmap_id.
Qed.

Lemma partition_in_bounds n K :
  Forall (λ th, slot th < K ∧ bs th ≤ be th ∧ be th ≤ n) (partition n K).
Proof.
  apply Forall_lookup. intros i th Hth.
  assert (i < K) as Hi.
  { rewrite <- (partition_length n K). by apply lookup_lt_Some in Hth. }
  rewrite partition_lookup in Hth by done. injection Hth as <-.
  by apply thread_of_in_bounds.
Qed.

Section EngineSafety.
Context {A T : Type} `{ValueInit T}.
Variable reduce_op : T → T → T.
Variable transform_op : A → T.

Local Abbreviation run_engine := (run_engine reduce_op transform_op).

(** The three shapes a call can take. *)
Lemma run_engine_cases (data : list A) init K :
  run_engine data init K = Outcome init [] []
  ∨ (data ≠ [] ∧ 1 ≤ K
     ∧ threads (run_engine data init K)
       = partition (length data) (Nat.min K (length data))
     ∧ length (partials (run_engine data init K))
       = Nat.min K (length data)).
Proof.
  unfold run_engine. destruct data as [|a data].
  { left. apply run_scheduled_empty. }
  destruct K as [|K].
  { left. apply run_scheduled_no_workers. }
  right. split; [done|]. split; [lia|].
  rewrite run_scheduled_nondegenerate by (done || lia).
  cbn [threads partials]. split; [done|]. apply reduced_partials_length.
Qed.

(** X3. In every call, each spawned thread writes a slot inside [partials],
    no two threads write the same slot, and each thread's block [bs, be)
    is a well-formed range inside the sequence: no out-of-bounds access and
    no slot with two writers. *)
Theorem threads_stay_in_bounds (data : list A) init K :
  let out := run_engine data init K in
  Forall (λ th, slot th < length (partials out)
                ∧ bs th ≤ be th ∧ be th ≤ length data) (threads out)
  ∧ NoDup (slot <$> threads out).
Proof.
  intros out. subst out.
  destruct (run_engine_cases data init K) as [->|(_ & _ & -> & ->)].
  { split; [apply Forall_nil_2|apply NoDup_nil_2]. }
  split; [apply partition_in_bounds|].
  rewrite partition_slots. apply NoDup_seq.
Qed.

(** X4. In a call on a non-empty sequence with [K >= 1] (whatever [K] is
    against the length), the workers together read every element of the
    sequence exactly once: in spawn order their index ranges list
    [0 .. n-1]. *)
Theorem every_element_read_once (data : list A) init K :
  data ≠ [] → 1 ≤ K →
  elements_read (run_engine data init K) = seq 0 (length data).
Proof.
  intros Hd HK. pose proof (nonempty_length data Hd) as Hn.
  destruct (run_engine_cases data init K) as [Hdeg|(_ & _ & Hths & _)].
  { exfalso. unfold run_engine in Hdeg.
    rewrite run_scheduled_nondegenerate in Hdeg by done.
    pose proof (f_equal (λ o, length (partials o)) Hdeg) as Hlen.
    cbn in Hlen. rewrite reduced_partials_length in Hlen. lia. }
  unfold elements_read. rewrite Hths, partition_threads, reads_prefix.
  rewrite block_bound_full by lia. done.
Qed.

(** X5. In a call on a non-empty sequence with [K >= 1] the blocks are
    balanced with the larger ones first: an earlier block is never smaller
    than a later one, and exceeds it by at most one element. *)
Theorem blocks_balanced (data : list A) init K i j th th' :
  data ≠ [] → 1 ≤ K → i ≤ j →
  threads (run_engine data init K) !! i = Some th →
  threads (run_engine data init K) !! j = Some th' →
  size_of th' ≤ size_of th ≤ size_of th' + 1.
Proof.
  intros Hd HK Hij Hth Hth'. unfold run_engine in *.
  rewrite run_scheduled_nondegenerate in Hth, Hth' by done.
  cbn [threads] in Hth, Hth'.
  assert (j < Nat.min K (length data)) as Hj.
  { apply lookup_lt_Some in Hth'. by rewrite partition_length in Hth'. }
  rewrite partition_lookup in Hth, Hth' by lia.
  injection Hth as <-. injection Hth' as <-.
  rewrite !size_of_thread_of. unfold block_size.
  destruct (Nat.ltb_spec i (length data mod Nat.min K (length data)));
    destruct (Nat.ltb_spec j (length data mod Nat.min K (length data))); lia.
Qed.

End EngineSafety.

(** X6. For every [n] and every [K >= 1], also beyond [n], the spawning loop
    tiles [0, n): the index ranges of its blocks list [0 .. n-1] in order and
    the sizes sum to [n]. It produces an empty block exactly when [K > n];
    the clamp [K = min(K, n)] is what keeps every worker busy. *)
Theorem partition_tiles_any_K n K :
  1 ≤ K →
  concat (reads <$> partition n K) = seq 0 n
  ∧ sum_list_with size_of (partition n K) = n
  ∧ ((∃ th, th ∈ partition n K ∧ size_of th = 0) ↔ n < K).
Proof.
  intros HK.
  split; [by rewrite partition_threads, reads_prefix, block_bound_full|].
  split; [by rewrite partition_threads, sizes_prefix, block_bound_full|].
  split.
  - intros (th & [i Hth]%list_elem_of_lookup & Hsz).
    assert (i < K) as Hi.
    { rewrite <- (partition_length n K). by apply lookup_lt_Some in Hth. }
    rewrite partition_lookup in Hth by done. injection Hth as <-.
    rewrite size_of_thread_of in Hsz.
    destruct (Nat.lt_ge_cases n K) as [Hlt|Hge]; [done|].
    pose proof (block_size_pos n K i ltac:(lia)). lia.
  - intros Hlt. exists (thread_of n K n). split.
    + apply list_elem_of_lookup. exists n. by apply partition_lookup.
    + rewrite size_of_thread_of. unfold block_size.
      rewrite Nat.div_small, Nat.mod_small by done.
      destruct (Nat.ltb_spec n n); lia.
Qed.

(** ** What the engine combines *)

Lemma block_subseteq {A : Type} (data : list A) K i : block data K i ⊆ data.
Proof.
  unfold block, range. etrans; [apply subseteq_take|apply subseteq_drop].
Qed.

Lemma fmap_block {A B : Type} (f : A → B) (data : list A) K i :
  block (f <$> data) K i = f <$> block data K i.
Proof. unfold block, range. by rewrite length_fmap, fmap_take, fmap_drop. Qed.

Section EngineAlgebra.
Context {A T : Type} `{ValueInit T}.
Variable reduce_op : T → T → T.

Local Abbreviation tr := (transform_reduce reduce_op).
Local Abbreviation std_tr := (std_transform_reduce reduce_op).
Local Abbreviation engine := (manual_parallel_transform_reduce reduce_op).
Local Abbreviation reduced := (reduced_partials reduce_op).

Lemma transform_reduce_closed (P : T → Prop) (f : A → T) blk seed :
  (∀ a b, P a → P b → P (reduce_op a b)) →
  P seed → (∀ x, x ∈ blk → P (f x)) → P (tr f blk seed).
Proof.
  intros Hop. unfold transform_reduce. revert seed.
  induction blk as [|x blk IH]; intros seed Hseed Hblk; [done|].
  cbn. apply IH.
  - apply Hop; [done|]. apply Hblk, elem_of_cons. by left.
  - intros y Hy. apply Hblk, elem_of_cons. by right.
Qed.

Lemma std_transform_reduce_closed (P : T → Prop) (f : A → T) blk seed :
  (∀ a b, P a → P b → P (reduce_op a b)) →
  P seed → (∀ x, x ∈ blk → P (f x)) → P (std_tr f blk seed).
Proof.
  intros Hop. revert seed.
  induction blk as [blk Hlen|x0 x1 x2 x3 rest IH] using four_step_ind;
    intros seed Hseed Hblk.
  - rewrite std_transform_reduce_short by done.
    by apply transform_reduce_closed.
  - rewrite std_transform_reduce_four. apply IH.
    + apply Hop; [done|].
      apply Hop; apply Hop; apply Hblk; rewrite !elem_of_cons; auto.
    + intros y Hy. apply Hblk. rewrite !elem_of_cons. auto.
Qed.

Lemma merge_closed (P : T → Prop) init ps :
  (∀ a b, P a → P b → P (reduce_op a b)) →
  P init → Forall P ps → P (merge reduce_op init ps).
Proof.
  intros Hop Hinit Hps. unfold merge. revert init Hinit.
  induction Hps as [|p ps Hp _ IH]; intros init Hinit; [done|].
  cbn. apply IH. by apply Hop.
Qed.

(** X7. The engine builds its result from [init], [T{}] and the transformed
    elements of the sequence using [reduce_op] only: a property that these
    values have and that [reduce_op] preserves holds of every partial
    result and of the returned value, for every [K]. *)
Theorem engine_preserves_invariant (P : T → Prop) (f : A → T)
    (data : list A) init K :
  (∀ a b, P a → P b → P (reduce_op a b)) →
  P init → P value_init → (∀ x, x ∈ data → P (f x)) →
  Forall P (partials (run_engine reduce_op f data init K))
  ∧ P (engine f data init K).
Proof.
  intros Hop Hinit Hzero Hdata.
  unfold manual_parallel_transform_reduce, run_engine.
  destruct data as [|a data].
  { rewrite run_scheduled_empty. by split; [apply Forall_nil_2|]. }
  destruct K as [|K].
  { rewrite run_scheduled_no_workers. by split; [apply Forall_nil_2|]. }
  rewrite run_scheduled_nondegenerate by (done || lia).
  cbn [partials result].
  assert (Forall P (reduced f value_init (a :: data) (S K))) as Hps.
  { unfold reduced_partials. apply Forall_fmap, Forall_forall.
    intros i _. unfold compose. apply std_transform_reduce_closed; [done..|].
    intros x Hx. apply Hdata. by eapply block_subseteq. }
  split; [done|]. by apply merge_closed.
Qed.

Lemma transform_reduce_fmap {B : Type} (g : B → T) (f : A → B) blk seed :
  tr g (f <$> blk) seed = tr (g ∘ f) blk seed.
Proof.
  unfold transform_reduce. revert seed.
  induction blk as [|x blk IH]; intros seed; [done|]. cbn. apply IH.
Qed.

Lemma std_transform_reduce_fmap {B : Type} (g : B → T) (f : A → B)
    blk seed :
  std_tr g (f <$> blk) seed = std_tr (g ∘ f) blk seed.
Proof.
  revert seed.
  induction blk as [blk Hlen|x0 x1 x2 x3 rest IH] using four_step_ind;
    intros seed.
  - rewrite !std_transform_reduce_short by (by rewrite ?length_fmap).
    apply transform_reduce_fmap.
  - cbn [fmap list_fmap]. rewrite !std_transform_reduce_four. apply IH.
Qed.

(** X8. Transforming the elements beforehand and composing the transform
    are the same call: on [f <$> data] with transform [g] the engine leaves
    the partial results and returns the value it does on [data] with
    transform [g ∘ f], for every [K] and every combine operation. *)
Theorem engine_transform_fusion {B : Type} (g : B → T) (f : A → B)
    (data : list A) init K :
  run_engine reduce_op g (f <$> data) init K
  = run_engine reduce_op (g ∘ f) data init K.
Proof.
  unfold run_engine. destruct data as [|a data].
  { by rewrite !run_scheduled_empty. }
  destruct K as [|K].
  { by rewrite !run_scheduled_no_workers. }
  rewrite !run_scheduled_nondegenerate by (done || lia).
  assert (reduced g value_init (f <$> a :: data) (S K)
          = reduced (g ∘ f) value_init (a :: data) (S K)) as ->.
  { unfold reduced_partials. rewrite length_fmap.
    apply list_fmap_ext. intros _ i _.
    by rewrite fmap_block, std_transform_reduce_fmap. }
  by rewrite length_fmap.
Qed.

Lemma transform_reduce_Permutation (f : A → T) blk blk' seed :
  associative reduce_op → commutative reduce_op →
  blk ≡ₚ blk' → tr f blk seed = tr f blk' seed.
Proof.
  intros Hassoc Hcomm Hperm. unfold transform_reduce. revert seed.
  induction Hperm as [|x l l' _ IH|x y l|l l' l'' _ IH1 _ IH2]; intros seed.
  - done.
  - cbn. apply IH.
  - cbn. f_equal.
    rewrite !Hassoc. f_equal. apply Hcomm.
  - by rewrite IH1.
Qed.

(** X9. For an associative and commutative combine operation with neutral
    element [T{}], the result does not depend on the order of the elements:
    two sequences that are permutations of each other give the same value,
    with any two worker counts [K, K' >= 1]. *)
Theorem engine_permutation_invariant (f : A → T) (data data' : list A)
    init K K' :
  associative reduce_op → commutative reduce_op →
  neutral reduce_op value_init →
  1 ≤ K → 1 ≤ K' → data ≡ₚ data' →
  engine f data init K = engine f data' init K'.
Proof.
  intros Hassoc Hcomm Hne HK HK' Hperm.
  assert (∀ x, reduce_op x value_init = x) as He by (intros x; apply Hne).
  rewrite !engine_sequential by done.
  by apply transform_reduce_Permutation.
Qed.

(** X14. For an associative combine operation with neutral element [T{}],
    a sequence can be reduced in pieces, the result of one call being the
    initial value of the next: reducing [d1 ++ d2] from [init] is reducing
    [d2] from the result of reducing [d1] from [init], whatever the worker
    counts [>= 1] of the three calls. *)
Theorem engine_chunked (f : A → T) (d1 d2 : list A) init K K1 K2 :
  associative reduce_op → neutral reduce_op value_init →
  1 ≤ K → 1 ≤ K1 → 1 ≤ K2 →
  engine f (d1 ++ d2) init K = engine f d2 (engine f d1 init K1) K2.
Proof.
  intros Hassoc Hne HK HK1 HK2.
  assert (∀ x, reduce_op x value_init = x) as He by (intros x; apply Hne).
  rewrite !engine_sequential by done. apply transform_reduce_app.
Qed.

End EngineAlgebra.

(** * Further properties of the sweep driver *)

Lemma sweep_upto_below_initial m measure :
  (best_time (sweep_upto m measure) <= initial_best_time)%Q.
Proof.
  induction m as [|m IH]; [apply Qle_refl|].
  rewrite sweep_upto_S. unfold sweep_step.
  destruct (Qlt_le_dec _ _) as [Hlt|Hge]; cbn [best_time]; lra.
Qed.

Lemma sweep_upto_extend m m' measure :
  m ≤ m' →
  (best_time (sweep_upto m' measure) <= best_time (sweep_upto m measure))%Q
  ∧ (best_K (sweep_upto m' measure) = best_K (sweep_upto m measure)
     ∨ m < best_K (sweep_upto m' measure)).
Proof.
  induction 1 as [|m' Hle [IHt IHK]].
  { split; [apply Qle_refl|by left]. }
  rewrite sweep_upto_S. unfold sweep_step.
  destruct (Qlt_le_dec _ _) as [Hlt|Hge]; cbn [best_time best_K].
  - split; [lra|]. right. lia.
  - done.
Qed.

Lemma sweep_upto_best_K_range m measure :
  best_K (sweep_upto m measure) = 1 ∨ 1 ≤ best_K (sweep_upto m measure) ≤ m.
Proof.
  destruct (sweep_upto_invariant m measure)
    as [(_ & HbK & _)|(HbK & _)]; [by left|by right].
Qed.

(** X10. Whatever times are recorded, at the end of the sweep [best_time] is
    at most the initial 1e18 and at most every recorded time, and it is
    either still the initial value (with [best_K] still 1) or the recorded
    time of the reported [best_K], which is then one of the swept worker
    counts. The swept worker counts are those from 1 through [hw * 2] as
    [unsigned] computes it. *)
Theorem sweep_best_time_is_lower_bound hw measure :
  let st := sweep hw measure in
  (best_time st <= initial_best_time)%Q
  ∧ (∀ K, 1 ≤ K ≤ sweep_bound hw → (best_time st <= measure K)%Q)
  ∧ ((best_time st = initial_best_time ∧ best_K st = 1)
     ∨ (1 ≤ best_K st ≤ sweep_bound hw
        ∧ best_time st = measure (best_K st))).
Proof.
  intros st. split; [apply sweep_upto_below_initial|].
  destruct (sweep_upto_invariant (sweep_bound hw) measure)
    as [(Hbt & HbK & Hall)|(HbK & Hbt & Hall & _)];
    change (sweep_upto (sweep_bound hw) measure) with st in *.
  - split; [|by left]. intros K HK. rewrite Hbt. by apply Hall.
  - split; [|by right]. intros K HK. rewrite Hbt. by apply Hall.
Qed.

(** X11. When no recorded time is below the initial [best_time] of 1e18,
    the driver never updates: it reports [best_K = 1] and leaves
    [best_time] at 1e18, whatever the time recorded for [K = 1]. *)
Theorem sweep_without_fast_run hw measure :
  (∀ K, 1 ≤ K ≤ sweep_bound hw → (initial_best_time <= measure K)%Q) →
  best_K (sweep hw measure) = 1
  ∧ best_time (sweep hw measure) = initial_best_time.
Proof.
  intros Hslow. rewrite sweep_as_upto.
  assert (∀ m, m ≤ sweep_bound hw →
            best_K (sweep_upto m measure) = 1
            ∧ best_time (sweep_upto m measure) = initial_best_time) as Hinv.
  { induction m as [|m IH]; intros Hm; [done|].
    destruct (IH ltac:(lia)) as [HbK Hbt].
    rewrite sweep_upto_S. unfold sweep_step.
    destruct (Qlt_le_dec _ _) as [Hlt|Hge]; cbn [best_time best_K]; [|done].
    rewrite Hbt in Hlt. specialize (Hslow (S m) ltac:(lia)). lra. }
  by apply Hinv.
Qed.

(** X12. As [main] runs it, with the hint 0 replaced by 1 and a hardware
    thread count whose double fits [unsigned], the sweep writes one line for
    each [K] from 1 through twice the hardware thread count, in increasing
    order and at least two of them, and the reported [best_K] is one of
    these worker counts, whatever times are recorded. *)
Theorem sweep_main_range hint measure :
  (N.of_nat (hardware_threads hint) * 2 < unsigned_modulus)%N →
  let hw := hardware_threads hint in
  let st := sweep_main hint measure in
  (hw = if hint =? 0 then 1 else hint)
  ∧ table st = (λ K, (K, measure K)) <$> seq 1 (hw * 2)
  ∧ 2 ≤ length (table st)
  ∧ 1 ≤ best_K st ≤ hw * 2.
Proof.
  intros Hfit hw st. pose proof (hardware_threads_pos hint) as Hpos.
  fold hw in Hpos, Hfit. split; [done|].
  assert (st = sweep_upto (hw * 2) measure) as Hst.
  { subst st. unfold sweep_main. fold hw.
    by rewrite sweep_as_upto, sweep_bound_no_wrap. }
  assert (table st = (λ K, (K, measure K)) <$> seq 1 (hw * 2)) as Htbl
    by (rewrite Hst; apply sweep_upto_table).
  split; [done|]. split.
  { rewrite Htbl, length_fmap, length_seq. lia. }
  rewrite Hst.
  destruct (sweep_upto_best_K_range (hw * 2) measure) as [HbK|HbK]; lia.
Qed.

(** X13. Sweeping further can only improve on what a shorter sweep found:
    with the same recorded times and [hw <= hw'], the double of [hw']
    fitting [unsigned], a sweep up to [2 * hw'] ends with a [best_time] no
    larger than the sweep up to [2 * hw], and its [best_K] is either the
    same or one of the additional worker counts. *)
Theorem sweep_wider_range hw hw' measure :
  hw ≤ hw' → (N.of_nat hw' * 2 < unsigned_modulus)%N →
  (best_time (sweep hw' measure) <= best_time (sweep hw measure))%Q
  ∧ (best_K (sweep hw' measure) = best_K (sweep hw measure)
     ∨ hw * 2 < best_K (sweep hw' measure)).
Proof.
  intros Hle Hfit. rewrite !sweep_as_upto.
  rewrite (sweep_bound_no_wrap hw') by done.
  rewrite (sweep_bound_no_wrap hw) by lia.
  apply (sweep_upto_extend (hw * 2) (hw' * 2) measure). lia.
Qed.

(** ** The further properties at concrete inputs *)

Lemma Z_add_commutative : commutative Z.add.
Proof. intros x y. lia. Defined.

Lemma slow_measure_is_slow K :
  1 ≤ K ≤ sweep_bound 1 → (initial_best_time <= slow_measure K)%Q.
Proof.
  intros _. unfold slow_measure. destruct (K =? 1); vm_compute; discriminate.
Defined.

Lemma single_worker_witness :
  [1; 2; 3]%Z ≠ []
  ∧ run_engine Z.add sq [1; 2; 3]%Z 7%Z 1
    = Outcome (7 + std_transform_reduce Z.add sq [1; 2; 3]%Z 0)%Z
              [std_transform_reduce Z.add sq [1; 2; 3]%Z 0%Z]
              [Thread 0 0 3].
Proof.
  split; [discriminate|].
  apply (single_worker Z.add sq [1; 2; 3]%Z 7%Z). discriminate.
Defined.

Lemma one_element_per_worker_witness :
  [5; 3]%Z ≠ [] ∧ length [5; 3]%Z ≤ 4
  ∧ partials (run_engine Z.sub id [5; 3]%Z 10%Z 4) = [(0 - 5)%Z; (0 - 3)%Z]
  ∧ manual_parallel_transform_reduce Z.sub id [5; 3]%Z 10%Z 4
    = (10 - (0 - 5) - (0 - 3))%Z.
Proof.
  split; [discriminate|]. split; [cbn; lia|].
  apply (one_element_per_worker Z.sub id [5; 3]%Z 10%Z 4).
  - discriminate.
  - cbn. lia.
Defined.

Lemma every_element_read_once_witness :
  [1; 2; 3]%Z ≠ [] ∧ 1 ≤ 7
  ∧ elements_read (run_engine Z.add sq [1; 2; 3]%Z 0%Z 7) = [0; 1; 2].
Proof.
  split; [discriminate|]. split; [lia|].
  apply (every_element_read_once Z.add sq [1; 2; 3]%Z 0%Z 7).
  - discriminate.
  - lia.
Defined.

Lemma blocks_balanced_witness :
  [1; 2; 3; 4; 5]%Z ≠ [] ∧ 1 ≤ 2 ∧ 0 ≤ 1
  ∧ threads (run_engine Z.add sq [1; 2; 3; 4; 5]%Z 0%Z 2) !! 0
    = Some (Thread 0 0 3)
  ∧ threads (run_engine Z.add sq [1; 2; 3; 4; 5]%Z 0%Z 2) !! 1
    = Some (Thread 1 3 5)
  ∧ size_of (Thread 1 3 5) ≤ size_of (Thread 0 0 3)
    ≤ size_of (Thread 1 3 5) + 1.
Proof.
  split; [discriminate|]. split; [lia|]. split; [lia|].
  split; [reflexivity|]. split; [reflexivity|].
  apply (blocks_balanced Z.add sq [1; 2; 3; 4; 5]%Z 0%Z 2 0 1).
  - discriminate.
  - lia.
  - lia.
  - reflexivity.
  - reflexivity.
Defined.

Lemma partition_tiles_any_K_witness :
  1 ≤ 5
  ∧ concat (reads <$> partition 2 5) = seq 0 2
  ∧ sum_list_with size_of (partition 2 5) = 2
  ∧ ((∃ th, th ∈ partition 2 5 ∧ size_of th = 0) ↔ 2 < 5).
Proof.
  split; [lia|]. apply (partition_tiles_any_K 2 5). lia.
Defined.

Lemma engine_preserves_invariant_witness :
  (∀ a b, 0 ≤ a → 0 ≤ b → 0 ≤ a + b)%Z
  ∧ (0 ≤ 1)%Z ∧ (0 ≤ value_init)%Z
  ∧ (∀ x, x ∈ [-3; 2]%Z → 0 ≤ sq x)%Z
  ∧ Forall (λ z, 0 ≤ z)%Z (partials (run_engine Z.add sq [-3; 2]%Z 1%Z 2))
  ∧ (0 ≤ manual_parallel_transform_reduce Z.add sq [-3; 2]%Z 1%Z 2)%Z.
Proof.
  assert (∀ a b, 0 ≤ a → 0 ≤ b → 0 ≤ a + b)%Z as Hop by (intros; lia).
  assert (0 ≤ value_init)%Z as Hzero by (vm_compute; discriminate).
  assert (∀ x, x ∈ [-3; 2]%Z → 0 ≤ sq x)%Z as Hdata
    by (intros x _; apply Z.square_nonneg).
  split; [exact Hop|]. split; [lia|]. split; [exact Hzero|].
  split; [exact Hdata|].
  apply (engine_preserves_invariant Z.add (λ z, 0 ≤ z)%Z sq [-3; 2]%Z 1%Z 2
           Hop ltac:(cbv beta; lia) Hzero Hdata).
Defined.

Lemma engine_permutation_invariant_witness :
  associative Z.add ∧ commutative Z.add ∧ neutral Z.add value_init
  ∧ 1 ≤ 2 ∧ 1 ≤ 3 ∧ [3; 1; 2]%Z ≡ₚ reverse [3; 1; 2]%Z
  ∧ manual_parallel_transform_reduce Z.add sq [3; 1; 2]%Z 0%Z 2
    = manual_parallel_transform_reduce Z.add sq (reverse [3; 1; 2]%Z) 0%Z 3.
Proof.
  assert ([3; 1; 2]%Z ≡ₚ reverse [3; 1; 2]%Z) as Hperm
    by (symmetry; apply reverse_Permutation).
  split; [exact Z_add_associative|]. split; [exact Z_add_commutative|].
  split; [exact Z_add_neutral|]. split; [lia|]. split; [lia|].
  split; [exact Hperm|].
  apply (engine_permutation_invariant Z.add sq [3; 1; 2]%Z
           (reverse [3; 1; 2]%Z) 0%Z 2 3
           Z_add_associative Z_add_commutative Z_add_neutral
           ltac:(lia) ltac:(lia) Hperm).
Defined.

Lemma engine_chunked_witness :
  associative Z.add ∧ neutral Z.add value_init ∧ 1 ≤ 3 ∧ 1 ≤ 2 ∧ 1 ≤ 4
  ∧ manual_parallel_transform_reduce Z.add sq ([1; 2; 3] ++ [4; 5])%Z 7%Z 3
    = manual_parallel_transform_reduce Z.add sq [4; 5]%Z
        (manual_parallel_transform_reduce Z.add sq [1; 2; 3]%Z 7%Z 2) 4.
Proof.
  split; [exact Z_add_associative|]. split; [exact Z_add_neutral|].
  split; [lia|]. split; [lia|]. split; [lia|].
  apply (engine_chunked Z.add sq [1; 2; 3]%Z [4; 5]%Z 7%Z 3 2 4
           Z_add_associative Z_add_neutral
           ltac:(lia) ltac:(lia) ltac:(lia)).
Defined.

Lemma sweep_without_fast_run_witness :
  (∀ K, 1 ≤ K ≤ sweep_bound 1 → (initial_best_time <= slow_measure K)%Q)
  ∧ best_K (sweep 1 slow_measure) = 1
  ∧ best_time (sweep 1 slow_measure) = initial_best_time.
Proof.
  split; [exact slow_measure_is_slow|].
  apply (sweep_without_fast_run 1 slow_measure slow_measure_is_slow).
Defined.

Lemma sweep_wider_range_witness :
  1 ≤ 2 ∧ (N.of_nat 2 * 2 < unsigned_modulus)%N
  ∧ (best_time (sweep 2 tie_measure) <= best_time (sweep 1 tie_measure))%Q
  ∧ (best_K (sweep 2 tie_measure) = best_K (sweep 1 tie_measure)
     ∨ 1 * 2 < best_K (sweep 2 tie_measure)).
Proof.
  split; [lia|]. split; [reflexivity|].
  apply (sweep_wider_range 1 2 tie_measure); [lia|reflexivity].
Defined.

Lemma sweep_main_range_witness :
  (N.of_nat (hardware_threads 0) * 2 < unsigned_modulus)%N
  ∧ table (sweep_main 0 tie_measure) = [(1, 5%Q); (2, 3%Q)]
  ∧ 1 ≤ best_K (sweep_main 0 tie_measure) ≤ hardware_threads 0 * 2.
Proof.
  split; [reflexivity|]. split; [reflexivity|].
  apply (sweep_main_range 0 tie_measure). reflexivity.
Defined.
